(** * Reconstructing a CPython [int] from its digit array

    A shallow embedding of [retrieve_full_int_value_from_address] (notebook
    [integers_and_memory.ipynb], cells 13 and 20) and of the byte reader
    [inspect_memory] (cell 10), together with the properties of the
    decode / encode pair that the specification states about them.

    Python integers are unbounded, so every Python [int] is a [Z] here.  Raw
    process memory is a total map from addresses to bytes: the notebook reads
    it through [ctypes] and never writes to it. *)

From Stdlib Require Import ZArith List Lia Bool Relations.
From Stdlib.Strings Require Import Byte.
Import ListNotations.
Local Open Scope Z_scope.

(** ** Outcome of a Python call *)

(** [IndexError] is what indexing a list or a [ctypes] array out of range
    raises; [OverflowError] and [ValueError] are what [ctypes] raises for an
    array type that is too large or of negative length.  [InvalidDigit] and
    [InvalidBase] are the two errors named by the specification. *)
Inductive exn : Set :=
| IndexError
| OverflowError
| ValueError
| InvalidDigit
| InvalidBase.

Inductive result (A : Type) : Type :=
| Returned (a : A)
| Raised (e : exn).

Arguments Returned {A} a.
Arguments Raised {A} e.

Definition bind {A B : Type} (m : result A) (k : A -> result B) : result B :=
  match m with
  | Returned a => k a
  | Raised e => Raised e
  end.

Notation "x <- m ;; k" := (bind m (fun x => k))
  (at level 61, m at next level, right associativity).

(** ** Raw memory as [ctypes] sees it *)

Module Ctypes.

Definition memory : Type := Z -> byte.

Definition ubyte (b : byte) : Z := Z.of_N (Byte.to_N b).

(** [(ctypes.c_ubyte * n).from_address(address)]: the [n] bytes that start
    at [address]. *)
Definition c_ubyte_array (mem : memory) (address : Z) (n : nat) : list Z :=
  map (fun k => ubyte (mem (address + Z.of_nat k))) (seq 0 n).

(** [sum(byte << (i * 8) for i, byte in enumerate(bytes_value))] *)
Fixpoint sum_shifted (i : Z) (bytes_value : list Z) : Z :=
  match bytes_value with
  | [] => 0
  | byte :: rest => Z.shiftl byte (i * 8) + sum_shifted (i + 1) rest
  end.

(** Sizes on the platform of the notebook (64-bit, little-endian). *)
Definition sizeof_c_long : Z := 8.
Definition sizeof_c_void_p : Z := 8.
Definition sizeof_c_ssize_t : Z := 8.
Definition sizeof_c_uint32 : Z := 4.

(** Cell 10. *)
Definition inspect_memory (mem : memory) (address : Z) : Z :=
  let bytes_value := c_ubyte_array mem address (Z.to_nat sizeof_c_long) in
  let interpreted_value := sum_shifted 0 bytes_value in
  interpreted_value.

(** [ctypes.c_uint32.from_address(address).value] *)
Definition c_uint32_value (mem : memory) (address : Z) : Z :=
  sum_shifted 0 (c_ubyte_array mem address (Z.to_nat sizeof_c_uint32)).

(** Two's complement reading of a [w]-bit pattern. *)
Definition signed (w : Z) (u : Z) : Z :=
  if u <? 2 ^ (w - 1) then u else u - 2 ^ w.

(** [ctypes.c_ssize_t.from_address(address).value] *)
Definition c_ssize_t_value (mem : memory) (address : Z) : Z :=
  signed (8 * sizeof_c_ssize_t)
    (sum_shifted 0 (c_ubyte_array mem address (Z.to_nat sizeof_c_ssize_t))).

(** The largest [ssize_t]. *)
Definition PY_SSIZE_T_MAX : Z := 2 ^ 63 - 1.

(** [ctypes.c_uint32 * length]: the array type, known by its length.  The
    library refuses a negative length with [ValueError], and with
    [OverflowError] a length that does not fit a [ssize_t] or whose size in
    bytes does not, that is a length above [PY_SSIZE_T_MAX // 4]. *)
Definition c_uint32_times (length : Z) : result Z :=
  if length <? 0 then Raised ValueError
  else if PY_SSIZE_T_MAX / sizeof_c_uint32 <? length then Raised OverflowError
  else Returned length.

(** A view [(c_uint32 * length).from_address(start)]. *)
Record c_uint32_array : Type := mk_array { start : Z; length : Z }.

(** [arr[i]] for an index produced by [range]: checked against the length
    of the array type, then read from memory. *)
Definition getitem (mem : memory) (arr : c_uint32_array) (i : nat) : result Z :=
  if Z.of_nat i <? length arr
  then Returned (c_uint32_value mem (start arr + sizeof_c_uint32 * Z.of_nat i))
  else Raised IndexError.

End Ctypes.

(** ** The notebook's reconstruction *)

Inductive Sign : Set := NonNegative | Negative.

(** [digits[i]] on a Python list, for an index produced by [range]. *)
Definition list_getitem (digits : list Z) (i : nat) : result Z :=
  match nth_error digits i with
  | Some d => Returned d
  | None => Raised IndexError
  end.

(** The loop
<<
    for i in range(num_digits):
        value += py_long_full.ob_digit[i] * (base ** i)
>>
    over the indices still to visit, [value] being the accumulator. *)
Fixpoint reconstruct (base : Z) (ob_digit : nat -> result Z)
         (indices : list nat) (value : Z) : result Z :=
  match indices with
  | [] => Returned value
  | i :: rest =>
      d <- ob_digit i ;;
      reconstruct base ob_digit rest (value + d * base ^ Z.of_nat i)
  end.

Definition range (num_digits : nat) : list nat := seq 0 num_digits.

(** Cells 13 and 20.  The fields of [PyLongObjectWithDigits] lie at the
    offsets that [ctypes] gives a structure of a [c_long], a [c_void_p], a
    [c_ssize_t] and an array of [c_uint32].  Declaring that structure needs
    the array type [ctypes.c_uint32 * num_digits], which [ctypes] refuses to
    build when [num_digits] is too large; the function then raises before it
    reads a digit. *)
Definition offset_ob_size : Z := Ctypes.sizeof_c_long + Ctypes.sizeof_c_void_p.
Definition offset_ob_digit : Z := offset_ob_size + Ctypes.sizeof_c_ssize_t.

Definition retrieve_full_int_value_from_address
           (mem : Ctypes.memory) (address : Z) : result Z :=
  let ob_size := Ctypes.c_ssize_t_value mem (address + offset_ob_size) in
  let num_digits := Z.abs ob_size in
  array_length <- Ctypes.c_uint32_times num_digits ;;
  let ob_digit := Ctypes.mk_array (address + offset_ob_digit) array_length in
  let base := 2 ^ 30 in
  value <- reconstruct base (Ctypes.getitem mem ob_digit)
                       (range (Z.to_nat num_digits)) 0 ;;
  Returned (if ob_size <? 0 then - value else value).

(** [decode] is the reconstruction of the function above with what it takes
    from memory handed in as arguments: the digit array as a list, the test
    [ob_size < 0] as a [Sign], and the local constant [base] as a parameter.
    The source fixes [base = 2 ** 30]; nothing in the loop depends on that
    value. *)
Definition negate_if_negative (sign : Sign) (value : Z) : Z :=
  match sign with
  | Negative => - value
  | NonNegative => value
  end.

Definition decode (digits : list Z) (sign : Sign) (base : Z) : result Z :=
  value <- reconstruct base (list_getitem digits)
                       (range (List.length digits)) 0 ;;
  Returned (negate_if_negative sign value).

(** What the function reads at [address]: the size field, the digits that
    follow it, and the sign it derives from the size field. *)
Section ReadAt.

Variable mem : Ctypes.memory.
Variable address : Z.

Definition ob_size_at : Z :=
  Ctypes.c_ssize_t_value mem (address + offset_ob_size).

Definition ob_digit_at (i : nat) : Z :=
  Ctypes.c_uint32_value mem
    (address + offset_ob_digit + Ctypes.sizeof_c_uint32 * Z.of_nat i).

Definition digits_at : list Z :=
  map ob_digit_at (range (Z.to_nat (Z.abs ob_size_at))).

Definition sign_at : Sign :=
  if ob_size_at <? 0 then Negative else NonNegative.

End ReadAt.

(** ** The function with the memory as state

    The same function once more, written over a world that is threaded
    through every step, so that what a call does to memory can be stated.  A
    computation takes the memory before and gives its outcome and the memory
    after.  [store] is the one operation that changes memory; reading through
    a [ctypes] view is [load]. *)

Module World.

Definition M (A : Type) : Type := Ctypes.memory -> result A * Ctypes.memory.

Definition ret {A : Type} (a : A) : M A := fun w => (Returned a, w).

Definition raise {A : Type} (e : exn) : M A := fun w => (Raised e, w).

Definition lift {A : Type} (r : result A) : M A := fun w => (r, w).

Definition then_ {A B : Type} (m : M A) (k : A -> M B) : M B :=
  fun w =>
    match m w with
    | (Returned a, w') => k a w'
    | (Raised e, w') => (Raised e, w')
    end.

(** Writing one byte: [ctypes.c_ubyte.from_address(address).value = b]. *)
Definition store (address : Z) (b : byte) : M unit :=
  fun w => (Returned tt, fun a => if a =? address then b else w a).

(** Reading a field of a view. *)
Definition load (read : Ctypes.memory -> Z -> Z) (address : Z) : M Z :=
  fun w => (Returned (read w address), w).

(** [arr[i]] on a [c_uint32] array view. *)
Definition getitem (arr : Ctypes.c_uint32_array) (i : nat) : M Z :=
  if Z.of_nat i <? Ctypes.length arr
  then load Ctypes.c_uint32_value
            (Ctypes.start arr + Ctypes.sizeof_c_uint32 * Z.of_nat i)
  else raise IndexError.

(** The loop of the function. *)
Fixpoint reconstruct (base : Z) (ob_digit : nat -> M Z)
         (indices : list nat) (value : Z) : M Z :=
  match indices with
  | [] => ret value
  | i :: rest =>
      then_ (ob_digit i)
            (fun d => reconstruct base ob_digit rest
                                  (value + d * base ^ Z.of_nat i))
  end.

(** Cells 13 and 20. *)
Definition retrieve_full_int_value_from_address (address : Z) : M Z :=
  then_ (load Ctypes.c_ssize_t_value (address + offset_ob_size))
    (fun ob_size =>
       let num_digits := Z.abs ob_size in
       then_ (lift (Ctypes.c_uint32_times num_digits))
         (fun array_length =>
            let ob_digit :=
              Ctypes.mk_array (address + offset_ob_digit) array_length in
            let base := 2 ^ 30 in
            then_ (reconstruct base (getitem ob_digit)
                               (range (Z.to_nat num_digits)) 0)
              (fun value =>
                 then_ (load Ctypes.c_ssize_t_value (address + offset_ob_size))
                   (fun ob_size' =>
                      ret (if ob_size' <? 0 then - value else value))))).


End World.

(** ** The loop as a transition system

    One state per evaluation of the loop header: the next index [i] handed
    out by [range(num_digits)] and the current [value]. *)

Record loop_state : Type := mk_state { next_index : nat; acc_value : Z }.

Inductive loop_step (base : Z) (ob_digit : nat -> result Z) (num_digits : nat)
  : loop_state -> loop_state -> Prop :=
| step_body : forall i value d,
    (i < num_digits)%nat ->
    ob_digit i = Returned d ->
    loop_step base ob_digit num_digits
              (mk_state i value)
              (mk_state (S i) (value + d * base ^ Z.of_nat i)).

(** [k] iterations of the loop body. *)
Inductive loop_steps (base : Z) (ob_digit : nat -> result Z) (num_digits : nat)
  : nat -> loop_state -> loop_state -> Prop :=
| steps_done : forall s, loop_steps base ob_digit num_digits 0 s s
| steps_more : forall k s1 s2 s3,
    loop_step base ob_digit num_digits s1 s2 ->
    loop_steps base ob_digit num_digits k s2 s3 ->
    loop_steps base ob_digit num_digits (S k) s1 s3.

Definition loop_exited (num_digits : nat) (s : loop_state) : Prop :=
  next_index s = num_digits.

(** ** What the specification says *)

Module Spec.

(** [sum_below n f] is [f 0 + ... + f (n - 1)]. *)
Fixpoint sum_below (n : nat) (f : nat -> Z) : Z :=
  match n with
  | O => 0
  | S k => sum_below k f + f k
  end.

(** "value = Σ digits[i] * base^i for i = 0..len(digits)-1" *)
Definition positional_value (base : Z) (digits : list Z) : Z :=
  sum_below (List.length digits)
            (fun i => nth i digits 0 * base ^ Z.of_nat i).

(** "Every digit in a DigitSequence satisfies 0 ≤ digit < BASE." *)
Definition valid_digits (base : Z) (digits : list Z) : Prop :=
  Forall (fun d => 0 <= d < base) digits.

Definition invalid_digit (base d : Z) : bool := (d <? 0) || (base <=? d).

(** "If sign is negative and the accumulated magnitude is non-zero, negate
    the result." *)
Definition apply_sign (sign : Sign) (magnitude : Z) : Z :=
  match sign with
  | Negative => if magnitude =? 0 then magnitude else - magnitude
  | NonNegative => magnitude
  end.

(** The decode contract of section 4.1 read literally, error conditions
    included; the base is examined first, as in the example
    [decode([1], Sign.positive, 1)], whose digit is also not below the
    base. *)
Definition decode_contract (digits : list Z) (sign : Sign) (base : Z)
  : result Z :=
  if base <? 2 then Raised InvalidBase
  else if existsb (invalid_digit base) digits then Raised InvalidDigit
  else Returned (apply_sign sign (positional_value base digits)).

(** "repeatedly divide the absolute value by base, collecting remainders as
    digits from least- to most-significant, until the quotient is zero" *)
Inductive repeated_division (base : Z) : Z -> list Z -> Prop :=
| division_stops : repeated_division base 0 []
| division_goes_on : forall n digits,
    n <> 0 ->
    repeated_division base (n / base) digits ->
    repeated_division base n (n mod base :: digits).

(** "no trailing (most-significant) zero digit, except the canonical
    empty/zero-digit representation of the value 0" *)
Definition normalized (digits : list Z) : Prop :=
  digits = [] \/ last digits 0 <> 0.

End Spec.

(** Modelled from the spec: the notebook has no [encode]; the digit arrays it
    reads are laid out by the interpreter itself.  [digits_of] is the division
    loop of the encode contract of section 4.1: the remainders of [n] under
    repeated division by [base], least significant first, until the quotient
    is zero.  Zero is the empty digit sequence.  The loop runs on fuel. *)
Fixpoint digits_of (fuel : nat) (base n : Z) : list Z :=
  match fuel with
  | O => []
  | S fuel' =>
      if n =? 0 then [] else n mod base :: digits_of fuel' base (n / base)
  end.

(** Modelled from the spec: the division loop of the contract runs "until
    the quotient is zero"; one more iteration than the binary logarithm of
    the magnitude gets it there for every base from 2 on
    ([digits_of_fuel_enough]). *)
Definition encode_fuel (n : Z) : nat := S (Z.to_nat (Z.log2 n)).

(** Modelled from the spec: the encode contract of section 4.1, absent from
    the notebook.  The digits of [abs(value)], the sign negative exactly for
    a strictly negative value, and [InvalidBase] for a base below 2. *)
Definition encode (value base : Z) : result (list Z * Sign) :=
  if base <? 2 then Raised InvalidBase
  else
    let n := Z.abs value in
    Returned (digits_of (encode_fuel n) base n,
              if value <? 0 then Negative else NonNegative).

(** [decode(encode(v, base), base)] *)
Definition decode_encode (v base : Z) : result Z :=
  p <- encode v base ;;
  decode (fst p) (snd p) base.

(** ** Memory images for the examples

    The notebook only reads memory; the objects it looks at are put there by
    the interpreter.  To run the function on concrete inputs, [pylong_bytes]
    spells out the object layout that the function assumes (reference count,
    type pointer, signed size, then one 32-bit word per digit, all
    little-endian) and [poke] places bytes in a memory. *)

Module Image.

Definition byte_of (z : Z) : byte :=
  match Byte.of_N (Z.to_N (z mod 256)) with
  | Some b => b
  | None => x00
  end.

(** The [n] low bytes of [z], least significant first; a negative [z]
    comes out in two's complement. *)
Fixpoint le_bytes (n : nat) (z : Z) : list byte :=
  match n with
  | O => []
  | S k => byte_of z :: le_bytes k (z / 256)
  end.

Definition zeroed : Ctypes.memory := fun _ => x00.

Definition poke (mem : Ctypes.memory) (address : Z) (bytes : list byte)
  : Ctypes.memory :=
  fun a =>
    if (address <=? a) && (a <? address + Z.of_nat (List.length bytes))
    then nth (Z.to_nat (a - address)) bytes x00
    else mem a.

Definition ob_size_of (digits : list Z) (sign : Sign) : Z :=
  negate_if_negative sign (Z.of_nat (List.length digits)).

Definition pylong_bytes (ob_refcnt ob_type : Z) (digits : list Z) (sign : Sign)
  : list byte :=
  le_bytes 8 ob_refcnt ++ le_bytes 8 ob_type
  ++ le_bytes 8 (ob_size_of digits sign)
  ++ flat_map (le_bytes 4) digits.

(** The memory [mem] with such an object placed at [address]. *)
Definition image (mem : Ctypes.memory) (address ob_refcnt ob_type : Z)
           (digits : list Z) (sign : Sign) : Ctypes.memory :=
  poke mem address (pylong_bytes ob_refcnt ob_type digits sign).

End Image.

(** The integer of cell 20. *)
Definition notebook_a : Z :=
  54789549307749363717967245642654820654127167450746741273478270594796070634706458364583706806438045365380416845306453083476597689754398754937934754389543754383549754398343767263692853638647846584239476595470464783065807645160457365410601546530135648376584073635870564380316583645306584045836453816584334063458.

(** Its digits at base [2 ** 30], as [encode] gives them. *)
Definition notebook_a_digits : list Z :=
  digits_of (encode_fuel notebook_a) (2 ^ 30) notebook_a.

(** An object that holds the integer of cell 20, placed at an address, with
    a reference count and a type pointer of the kind the notebook prints
    (those of cells 4 and 6). *)
Definition notebook_memory : Ctypes.memory :=
  Image.image Image.zeroed 4936991280 2 4368111432
              notebook_a_digits NonNegative.


Definition minus_seven_memory : Ctypes.memory :=
  Image.image Image.zeroed 4096 1 4368111432 [7] Negative.

(** ** The probes of the exploratory cells

    Cells 4, 6, 8, 15 and 18 read single fields at fixed offsets from
    [address_of_a = id(a)].  Each name below is the variable of that cell, as
    a function of the memory and of the address. *)

Module Probe.

(** [ctypes.c_long.from_address(address).value] *)
Definition c_long_value (mem : Ctypes.memory) (address : Z) : Z :=
  Ctypes.signed (8 * Ctypes.sizeof_c_long)
    (Ctypes.sum_shifted 0
       (Ctypes.c_ubyte_array mem address (Z.to_nat Ctypes.sizeof_c_long))).

(** [ctypes.c_void_p.from_address(address).value]: the pointer as an
    unsigned integer, [None] for the null pointer. *)
Definition c_void_p_value (mem : Ctypes.memory) (address : Z) : option Z :=
  let p := Ctypes.sum_shifted 0
             (Ctypes.c_ubyte_array mem address
                (Z.to_nat Ctypes.sizeof_c_void_p)) in
  if p =? 0 then None else Some p.

(** Cell 4: [value_at_address.value]. *)
Definition value_at_address (mem : Ctypes.memory) (address_of_a : Z) : Z :=
  c_long_value mem address_of_a.

End Probe.

(** Cell 6 (and cell 15, which repeats its last read as [first_digit]). *)
Module Cell6.

Definition ref_count (mem : Ctypes.memory) (address_of_a : Z) : Z :=
  Probe.c_long_value mem address_of_a.

Definition type_ptr (mem : Ctypes.memory) (address_of_a : Z) : option Z :=
  Probe.c_void_p_value mem (address_of_a + Ctypes.sizeof_c_long).

Definition digit (mem : Ctypes.memory) (address_of_a : Z) : Z :=
  Probe.c_long_value mem (address_of_a + 2 * Ctypes.sizeof_c_long).

End Cell6.

(** Cell 8: five [c_long] reads, one [c_long] apart. *)
Module Cell8.

Definition first_digit (mem : Ctypes.memory) (address_of_a : Z) : Z :=
  Probe.c_long_value mem (address_of_a + 2 * Ctypes.sizeof_c_long).

Definition second_digit (mem : Ctypes.memory) (address_of_a : Z) : Z :=
  Probe.c_long_value mem (address_of_a + 3 * Ctypes.sizeof_c_long).

Definition third_digit (mem : Ctypes.memory) (address_of_a : Z) : Z :=
  Probe.c_long_value mem (address_of_a + 4 * Ctypes.sizeof_c_long).

Definition fourth_digit (mem : Ctypes.memory) (address_of_a : Z) : Z :=
  Probe.c_long_value mem (address_of_a + 5 * Ctypes.sizeof_c_long).

Definition fifth_digit (mem : Ctypes.memory) (address_of_a : Z) : Z :=
  Probe.c_long_value mem (address_of_a + 6 * Ctypes.sizeof_c_long).

End Cell8.

(** Cell 18: the size as a [c_long], the first digit as a [c_uint32]. *)
Module Cell18.

Definition ref_count (mem : Ctypes.memory) (address_of_a : Z) : Z :=
  Probe.c_long_value mem address_of_a.

Definition type_ptr (mem : Ctypes.memory) (address_of_a : Z) : option Z :=
  Probe.c_void_p_value mem (address_of_a + Ctypes.sizeof_c_long).

Definition size (mem : Ctypes.memory) (address_of_a : Z) : Z :=
  Probe.c_long_value mem (address_of_a + 2 * Ctypes.sizeof_c_long).

Definition first_digit (mem : Ctypes.memory) (address_of_a : Z) : Z :=
  Ctypes.c_uint32_value mem (address_of_a + 3 * Ctypes.sizeof_c_long).

End Cell18.

(** * Properties *)

(** ** Finite sums *)

Section Sums.

Import Spec.

Lemma sum_below_ext (n : nat) (f g : nat -> Z) :
  (forall i, (i < n)%nat -> f i = g i) -> sum_below n f = sum_below n g.
Proof.
  induction n as [|n IH]; intros Hfg; simpl; [reflexivity|].
  rewrite IH, Hfg; auto with arith.
Qed.

Lemma sum_below_shift (n : nat) (f : nat -> Z) :
  sum_below (S n) f = f O + sum_below n (fun i => f (S i)).
Proof.
  induction n as [|n IH]; [simpl; lia|].
  change (sum_below (S (S n)) f) with (sum_below (S n) f + f (S n)).
  rewrite IH. simpl. lia.
Qed.

Lemma sum_below_scale (n : nat) (c : Z) (f : nat -> Z) :
  sum_below n (fun i => c * f i) = c * sum_below n f.
Proof. induction n as [|n IH]; simpl; [lia | rewrite IH; lia]. Qed.

Lemma positional_value_nil (base : Z) : positional_value base [] = 0.
Proof. reflexivity. Qed.

(** Horner's rule, one digit at a time. *)
Lemma positional_value_cons (base d : Z) (digits : list Z) :
  positional_value base (d :: digits) = d + base * positional_value base digits.
Proof.
  unfold positional_value.
  change (List.length (d :: digits)) with (S (List.length digits)).
  rewrite sum_below_shift, <- sum_below_scale. simpl nth at 1.
  rewrite Z.pow_0_r, Z.mul_1_r. f_equal.
  apply sum_below_ext. intros i _.
  change (nth (S i) (d :: digits) 0) with (nth i digits 0).
  rewrite Nat2Z.inj_succ, Z.pow_succ_r by lia. lia.
Qed.

Lemma positional_value_app (base : Z) (low high : list Z) :
  positional_value base (low ++ high)
  = positional_value base low
    + base ^ Z.of_nat (List.length low) * positional_value base high.
Proof.
  induction low as [|d low IH]; simpl List.length; simpl app.
  - rewrite positional_value_nil, Z.pow_0_r. lia.
  - rewrite !positional_value_cons, IH, Nat2Z.inj_succ, Z.pow_succ_r by lia.
    lia.
Qed.

Lemma positional_value_zeros (base : Z) (k : nat) :
  positional_value base (repeat 0 k) = 0.
Proof.
  induction k as [|k IH]; [reflexivity|].
  simpl repeat. rewrite positional_value_cons, IH. lia.
Qed.

Lemma valid_digits_bounds (base : Z) (digits : list Z) :
  valid_digits base digits ->
  0 <= positional_value base digits < base ^ Z.of_nat (List.length digits).
Proof.
  induction 1 as [|d digits Hd _ IH].
  - rewrite positional_value_nil. simpl. lia.
  - rewrite positional_value_cons.
    change (List.length (d :: digits)) with (S (List.length digits)).
    rewrite Nat2Z.inj_succ, Z.pow_succ_r by lia. nia.
Qed.

End Sums.

(** ** The loop computes the positional sum *)

Section Loop.

Import Spec.

Variable base : Z.
Variable ob_digit : nat -> result Z.

Lemma reconstruct_app (l1 l2 : list nat) (value : Z) :
  reconstruct base ob_digit (l1 ++ l2) value
  = (v <- reconstruct base ob_digit l1 value ;;
     reconstruct base ob_digit l2 v).
Proof.
  revert value. induction l1 as [|i l1 IH]; intros value; simpl.
  - reflexivity.
  - destruct (ob_digit i) as [d|e]; simpl; [apply IH | reflexivity].
Qed.

(** If the first [n] indices can be read, the loop over [range(n)] returns,
    and what it adds to the accumulator is the positional sum. *)
Lemma reconstruct_range (f : nat -> Z) (n : nat) (value : Z) :
  (forall i, (i < n)%nat -> ob_digit i = Returned (f i)) ->
  reconstruct base ob_digit (range n) value
  = Returned (value + sum_below n (fun i => f i * base ^ Z.of_nat i)).
Proof.
  unfold range. induction n as [|n IH]; intros Hread.
  - simpl. f_equal. lia.
  - rewrite seq_S, reconstruct_app, IH by auto with arith.
    simpl. rewrite Hread by auto with arith. simpl. f_equal. lia.
Qed.

(** The transition system takes the same steps. *)
Lemma loop_steps_range (f : nat -> Z) (num_digits k : nat) :
  (forall i, (i < num_digits)%nat -> ob_digit i = Returned (f i)) ->
  (k <= num_digits)%nat ->
  loop_steps base ob_digit num_digits k
             (mk_state 0 0)
             (mk_state k (sum_below k (fun i => f i * base ^ Z.of_nat i))).
Proof.
  intros Hread.
  assert (Hgen : forall j i value, (i + j <= num_digits)%nat ->
    loop_steps base ob_digit num_digits j (mk_state i value)
      (mk_state (i + j)
         (value + sum_below j
                    (fun t => f (i + t)%nat * base ^ Z.of_nat (i + t))))).
  { induction j as [|j IH]; intros i value Hle.
    - rewrite Nat.add_0_r. simpl. rewrite Z.add_0_r. constructor.
    - eapply steps_more.
      + apply step_body with (d := f i); [lia | apply Hread; lia].
      + specialize (IH (S i) (value + f i * base ^ Z.of_nat i)).
        rewrite sum_below_shift, Nat.add_0_r, Nat.add_succ_r.
        replace (value + (f i * base ^ Z.of_nat i
                   + sum_below j (fun t => f (i + S t)%nat
                                           * base ^ Z.of_nat (i + S t))))
          with (value + f i * base ^ Z.of_nat i
                + sum_below j (fun t => f (S i + t)%nat
                                        * base ^ Z.of_nat (S i + t))).
        * apply IH. lia.
        * rewrite <- Z.add_assoc. do 2 f_equal. apply sum_below_ext.
          intros t _. now rewrite Nat.add_succ_r. }
  intros Hk. specialize (Hgen k 0%nat 0 Hk). simpl in Hgen. exact Hgen.
Qed.

Lemma loop_step_deterministic (num_digits : nat) (s s1 s2 : loop_state) :
  loop_step base ob_digit num_digits s s1 ->
  loop_step base ob_digit num_digits s s2 ->
  s1 = s2.
Proof.
  intros H1 H2. inversion H1; subst. inversion H2; subst. congruence.
Qed.

Lemma loop_steps_deterministic (num_digits k : nat) (s s1 s2 : loop_state) :
  loop_steps base ob_digit num_digits k s s1 ->
  loop_steps base ob_digit num_digits k s s2 ->
  s1 = s2.
Proof.
  intros H1. revert s2. induction H1 as [s|k s a b Hstep _ IH]; intros s2 H2.
  - inversion H2; subst. reflexivity.
  - inversion H2 as [|k' x y z Hstep' Hrest]; subst.
    assert (a = y) by (eapply loop_step_deterministic; eauto).
    subst. now apply IH.
Qed.


Lemma loop_exited_stuck (num_digits : nat) (s s' : loop_state) :
  loop_exited num_digits s -> ~ loop_step base ob_digit num_digits s s'.
Proof.
  unfold loop_exited. intros Hexit Hstep.
  inversion Hstep as [i value d Hlt Hread Hs Hs']; subst s.
  cbn [next_index] in Hexit. lia.
Qed.

End Loop.

(** ** [decode] in closed form *)

Section Decode.

Import Spec.

Lemma list_getitem_in_range (digits : list Z) (i : nat) :
  (i < List.length digits)%nat ->
  list_getitem digits i = Returned (nth i digits 0).
Proof.
  intros Hi. unfold list_getitem.
  now rewrite (nth_error_nth' digits 0 Hi).
Qed.

(** [decode] never raises: every index handed out by [range] is in
    range.  No condition on the digits or on the base is needed. *)
Lemma decode_returns (digits : list Z) (sign : Sign) (base : Z) :
  decode digits sign base
  = Returned (negate_if_negative sign (positional_value base digits)).
Proof.
  unfold decode.
  rewrite (reconstruct_range base _ (fun i => nth i digits 0))
    by (intros i Hi; now apply list_getitem_in_range).
  cbn [bind]. now rewrite Z.add_0_l.
Qed.

End Decode.

(** ** The function of the notebook and [decode] *)

Section Memory.

Import Spec.

Variable mem : Ctypes.memory.
Variable address : Z.

Lemma length_digits_at :
  List.length (digits_at mem address)
  = Z.to_nat (Z.abs (ob_size_at mem address)).
Proof.
  unfold digits_at, range. now rewrite length_map, length_seq.
Qed.

Lemma nth_digits_at (i : nat) :
  (i < Z.to_nat (Z.abs (ob_size_at mem address)))%nat ->
  nth i (digits_at mem address) 0 = ob_digit_at mem address i.
Proof.
  intros Hi. unfold digits_at, range.
  rewrite (nth_indep _ 0 (ob_digit_at mem address 0))
    by now rewrite length_map, length_seq.
  rewrite map_nth, seq_nth by exact Hi. reflexivity.
Qed.

Lemma c_uint32_times_cases (n : Z) :
  0 <= n ->
  Ctypes.c_uint32_times n
  = if 2 ^ 61 <=? n then Raised OverflowError else Returned n.
Proof.
  intros Hn. unfold Ctypes.c_uint32_times.
  change (Ctypes.PY_SSIZE_T_MAX / Ctypes.sizeof_c_uint32) with (2 ^ 61 - 1).
  destruct (Z.ltb_spec n 0); [lia|].
  destruct (Z.ltb_spec (2 ^ 61 - 1) n); destruct (Z.leb_spec (2 ^ 61) n);
    try reflexivity; lia.
Qed.

(** Either the array type is refused, or the function is [decode] at base
    [2 ** 30] on the digits and the sign found in memory. *)
Lemma retrieve_cases :
  retrieve_full_int_value_from_address mem address
  = if 2 ^ 61 <=? Z.abs (ob_size_at mem address)
    then Raised OverflowError
    else decode (digits_at mem address) (sign_at mem address) (2 ^ 30).
Proof.
  unfold retrieve_full_int_value_from_address.
  fold (ob_size_at mem address).
  rewrite c_uint32_times_cases by lia.
  destruct (Z.leb_spec (2 ^ 61) (Z.abs (ob_size_at mem address)))
    as [Hbig|Hsmall]; [reflexivity|].
  cbn [bind]. rewrite decode_returns.
  rewrite (reconstruct_range _ _ (ob_digit_at mem address)).
  - cbn [bind]. f_equal. rewrite Z.add_0_l.
    unfold positional_value. rewrite length_digits_at.
    rewrite (sum_below_ext _ _
               (fun i => nth i (digits_at mem address) 0
                         * (2 ^ 30) ^ Z.of_nat i))
      by (intros i Hi; now rewrite nth_digits_at).
    unfold sign_at. destruct (ob_size_at mem address <? 0); reflexivity.
  - intros i Hi. unfold Ctypes.getitem. cbn [Ctypes.length Ctypes.start].
    replace (Z.of_nat i <? Z.abs (ob_size_at mem address)) with true
      by (symmetry; apply Z.ltb_lt; lia).
    reflexivity.
Qed.

Lemma retrieve_is_decode :
  Z.abs (ob_size_at mem address) < 2 ^ 61 ->
  retrieve_full_int_value_from_address mem address
  = decode (digits_at mem address) (sign_at mem address) (2 ^ 30).
Proof.
  intros Hsmall. rewrite retrieve_cases.
  destruct (Z.leb_spec (2 ^ 61) (Z.abs (ob_size_at mem address)));
    [lia | reflexivity].
Qed.

Lemma retrieve_overflow :
  2 ^ 61 <= Z.abs (ob_size_at mem address) ->
  retrieve_full_int_value_from_address mem address = Raised OverflowError.
Proof.
  intros Hbig. rewrite retrieve_cases.
  destruct (Z.leb_spec (2 ^ 61) (Z.abs (ob_size_at mem address)));
    [reflexivity | lia].
Qed.

End Memory.

(** ** Repeated division *)

Section Encode.

Import Spec.

Variable base : Z.
Hypothesis base_ge_2 : 2 <= base.

(** One division by the base lowers the binary logarithm, unless the
    quotient is already zero. *)
Lemma log2_quotient (n : Z) :
  0 < n -> 0 < n / base -> Z.log2 (n / base) < Z.log2 n.
Proof.
  intros Hn Hq.
  assert (Hle : 2 * (n / base) <= n).
  { pose proof (Z.mul_div_le n base ltac:(lia)). nia. }
  apply Z.log2_le_mono in Hle.
  rewrite Z.log2_double in Hle by exact Hq. lia.
Qed.

Lemma digits_of_fuel_enough (fuel : nat) (n : Z) :
  0 <= n ->
  (Z.to_nat (Z.log2 n) < fuel)%nat ->
  repeated_division base n (digits_of fuel base n).
Proof.
  revert n. induction fuel as [|fuel IH]; intros n Hn Hfuel; [lia|].
  cbn [digits_of]. destruct (Z.eqb_spec n 0) as [->|Hnz].
  - constructor.
  - constructor; [exact Hnz|].
    assert (Hq : 0 <= n / base) by (apply Z.div_pos; lia).
    destruct (Z.eq_dec (n / base) 0) as [Hz|Hpos].
    + rewrite Hz. destruct fuel; constructor.
    + apply IH; [exact Hq|].
      pose proof (log2_quotient n ltac:(lia) ltac:(lia)).
      pose proof (Z.log2_nonneg (n / base)). lia.
Qed.

Lemma repeated_division_functional (n : Z) (ds ds' : list Z) :
  repeated_division base n ds -> repeated_division base n ds' -> ds = ds'.
Proof.
  intros H. revert ds'.
  induction H as [|n ds Hn _ IH]; intros ds' H'; inversion H'; subst;
    try congruence.
  f_equal. now apply IH.
Qed.

Lemma repeated_division_value (n : Z) (ds : list Z) :
  repeated_division base n ds -> positional_value base ds = n.
Proof.
  induction 1 as [|n ds Hn _ IH]; [reflexivity|].
  rewrite positional_value_cons, IH.
  pose proof (Z.div_mod n base ltac:(lia)). lia.
Qed.

Lemma repeated_division_valid (n : Z) (ds : list Z) :
  repeated_division base n ds -> valid_digits base ds.
Proof.
  induction 1 as [|n ds Hn _ IH]; constructor; [|exact IH].
  apply Z.mod_pos_bound. lia.
Qed.

Lemma repeated_division_nonneg (n : Z) (ds : list Z) :
  repeated_division base n ds -> 0 <= n.
Proof.
  intros H. rewrite <- (repeated_division_value n ds H).
  apply valid_digits_bounds. eapply repeated_division_valid; eauto.
Qed.

(** The most significant digit is the last non-zero quotient. *)
Lemma repeated_division_last (n : Z) (ds : list Z) :
  repeated_division base n ds -> ds <> [] -> last ds 0 <> 0.
Proof.
  induction 1 as [|n ds Hn Hdiv IH]; intros Hne; [congruence|].
  destruct ds as [|d ds].
  - inversion Hdiv as [Hq|]; subst. cbn [last].
    pose proof (Z.div_mod n base ltac:(lia)). lia.
  - change (last (n mod base :: d :: ds) 0) with (last (d :: ds) 0).
    apply IH. discriminate.
Qed.

(** The digit of weight [base ^ i] is the remainder of the [i]-th
    quotient; past the end every quotient is zero. *)
Lemma repeated_division_nth (n : Z) (ds : list Z) (i : nat) :
  repeated_division base n ds ->
  nth i ds 0 = (n / base ^ Z.of_nat i) mod base.
Proof.
  intros H. revert i. induction H as [|n ds Hn Hdiv IH]; intros i.
  - rewrite Z.div_0_l, Z.mod_0_l by (try apply Z.pow_nonzero; lia).
    destruct i; reflexivity.
  - destruct i as [|i].
    + cbn [nth]. now rewrite Z.pow_0_r, Z.div_1_r.
    + cbn [nth]. rewrite IH, Nat2Z.inj_succ, Z.pow_succ_r by lia.
      rewrite Z.div_div by (try apply Z.pow_pos_nonneg; lia).
      reflexivity.
Qed.

Lemma repeated_division_length (n : Z) (ds : list Z) :
  repeated_division base n ds ->
  n / base ^ Z.of_nat (List.length ds) = 0
  /\ forall i, (i < List.length ds)%nat -> n / base ^ Z.of_nat i <> 0.
Proof.
  induction 1 as [|n ds Hn Hdiv [IHz IHnz]].
  - split; [reflexivity | cbn; lia].
  - pose proof (repeated_division_nonneg _ _ Hdiv) as Hq.
    split.
    + cbn [List.length]. rewrite Nat2Z.inj_succ, Z.pow_succ_r by lia.
      rewrite <- Z.div_div by (try apply Z.pow_pos_nonneg; lia).
      exact IHz.
    + intros [|i] Hi.
      * now rewrite Z.pow_0_r, Z.div_1_r.
      * rewrite Nat2Z.inj_succ, Z.pow_succ_r by lia.
        rewrite <- Z.div_div by (try apply Z.pow_pos_nonneg; lia).
        apply IHnz. cbn [List.length] in Hi. lia.
Qed.

Lemma encode_returns (v : Z) :
  encode v base
  = Returned (digits_of (encode_fuel (Z.abs v)) base (Z.abs v),
              if v <? 0 then Negative else NonNegative).
Proof.
  unfold encode. destruct (Z.ltb_spec base 2); [lia | reflexivity].
Qed.

Lemma encode_divides (v : Z) :
  repeated_division base (Z.abs v)
                    (digits_of (encode_fuel (Z.abs v)) base (Z.abs v)).
Proof.
  apply digits_of_fuel_enough; [lia | unfold encode_fuel; lia].
Qed.

Lemma decode_encode_returns (v : Z) : decode_encode v base = Returned v.
Proof.
  unfold decode_encode. rewrite encode_returns. cbn [bind fst snd].
  rewrite decode_returns, (repeated_division_value _ _ (encode_divides v)).
  f_equal. destruct (Z.ltb_spec v 0); cbn [negate_if_negative]; lia.
Qed.

End Encode.

(** ** Reading back a memory image *)

Section Images.

Import Spec Ctypes Image.

Lemma ubyte_range (b : byte) : 0 <= ubyte b < 256.
Proof. unfold ubyte. pose proof (Byte.to_N_bounded b). lia. Qed.

Lemma ubyte_byte_of (z : Z) : ubyte (byte_of z) = z mod 256.
Proof.
  pose proof (Z.mod_pos_bound z 256 ltac:(lia)) as Hm.
  unfold ubyte, byte_of.
  destruct (Byte.of_N (Z.to_N (z mod 256))) as [b|] eqn:E.
  - apply Byte.to_of_N in E. rewrite E. lia.
  - apply Byte.of_N_None_iff in E. lia.
Qed.

Lemma length_le_bytes (n : nat) (z : Z) : List.length (le_bytes n z) = n.
Proof. revert z. induction n; intros z; simpl; auto. Qed.

(** Little-endian reassembly undoes [le_bytes], modulo the width. *)
Lemma sum_shifted_le_bytes (n : nat) (z i : Z) :
  0 <= i ->
  sum_shifted i (map ubyte (le_bytes n z))
  = (z mod 2 ^ (8 * Z.of_nat n)) * 2 ^ (i * 8).
Proof.
  revert z i. induction n as [|n IH]; intros z i Hi.
  - simpl. now rewrite Z.mod_1_r.
  - cbn [le_bytes map sum_shifted].
    rewrite IH, ubyte_byte_of, Z.shiftl_mul_pow2 by lia.
    replace (8 * Z.of_nat (S n)) with (8 + 8 * Z.of_nat n) by lia.
    rewrite Z.pow_add_r by lia.
    change (2 ^ 8) with 256.
    rewrite Z.rem_mul_r by (try apply Z.pow_pos_nonneg; lia).
    replace ((i + 1) * 8) with (8 + i * 8) by lia.
    rewrite Z.pow_add_r by lia. change (2 ^ 8) with 256. ring.
Qed.

Lemma poke_inside (mem : memory) (address : Z) (bytes : list byte) (k : nat) :
  (k < List.length bytes)%nat ->
  poke mem address bytes (address + Z.of_nat k) = nth k bytes x00.
Proof.
  intros Hk. unfold poke.
  replace ((address <=? address + Z.of_nat k)
           && (address + Z.of_nat k <? address + Z.of_nat (List.length bytes)))
    with true
    by (symmetry; apply andb_true_iff; split;
        [apply Z.leb_le | apply Z.ltb_lt]; lia).
  f_equal. lia.
Qed.

Lemma map_nth_seq {A B : Type} (f : A -> B) (l : list A) (d : A) :
  map (fun k => f (nth k l d)) (seq 0 (List.length l)) = map f l.
Proof.
  induction l as [|a l IH]; [reflexivity|].
  cbn [List.length seq map nth]. f_equal.
  rewrite <- seq_shift, map_map. exact IH.
Qed.

(** A run of bytes inside an image is read back as it was written. *)
Lemma c_ubyte_array_poke (mem : memory) (address : Z)
      (before run after : list byte) :
  c_ubyte_array (poke mem address (before ++ run ++ after))
                (address + Z.of_nat (List.length before))
                (List.length run)
  = map ubyte run.
Proof.
  unfold c_ubyte_array. rewrite <- (map_nth_seq ubyte run x00).
  apply map_ext_in. intros k Hk. apply in_seq in Hk. f_equal.
  rewrite <- Z.add_assoc, <- Nat2Z.inj_add.
  rewrite poke_inside by (rewrite !length_app; lia).
  rewrite app_nth2_plus. apply app_nth1. lia.
Qed.

Lemma signed_wrap (w z : Z) :
  0 < w -> - 2 ^ (w - 1) <= z < 2 ^ (w - 1) -> signed w (z mod 2 ^ w) = z.
Proof.
  intros Hw Hz.
  assert (Hpow : 2 ^ w = 2 * 2 ^ (w - 1))
    by (rewrite <- Z.pow_succ_r by lia; f_equal; lia).
  unfold signed. destruct (Z.le_gt_cases 0 z) as [Hpos|Hneg].
  - rewrite Z.mod_small by lia.
    destruct (Z.ltb_spec z (2 ^ (w - 1))); lia.
  - rewrite <- (Z.mod_unique z (2 ^ w) (- 1) (z + 2 ^ w)) by lia.
    destruct (Z.ltb_spec (z + 2 ^ w) (2 ^ (w - 1))); lia.
Qed.

Variable mem : memory.
Variable address ob_refcnt ob_type : Z.
Variable digits : list Z.
Variable sign : Sign.

Hypothesis digits_fit : Forall (fun d => 0 <= d < 2 ^ 32) digits.
Hypothesis size_fits : Z.of_nat (List.length digits) < 2 ^ 63.

Lemma ob_size_at_image :
  ob_size_at (image mem address ob_refcnt ob_type digits sign) address
  = ob_size_of digits sign.
Proof.
  unfold ob_size_at, c_ssize_t_value, image, pylong_bytes.
  rewrite (app_assoc (le_bytes 8 ob_refcnt)).
  replace (address + offset_ob_size)
    with (address + Z.of_nat (List.length (le_bytes 8 ob_refcnt
                                            ++ le_bytes 8 ob_type)))
    by (rewrite length_app, !length_le_bytes; reflexivity).
  change (Z.to_nat sizeof_c_ssize_t) with 8%nat.
  rewrite <- (length_le_bytes 8 (ob_size_of digits sign)) at 3.
  rewrite c_ubyte_array_poke, sum_shifted_le_bytes by lia.
  rewrite ?length_le_bytes.
  change (0 * 8) with 0. rewrite Z.pow_0_r, Z.mul_1_r.
  change (8 * sizeof_c_ssize_t) with 64. change (8 * Z.of_nat 8) with 64.
  apply signed_wrap; [reflexivity|].
  change (64 - 1) with 63.
  unfold ob_size_of. destruct sign; cbn [negate_if_negative]; lia.
Qed.

Lemma length_flat_le_bytes (l : list Z) :
  List.length (flat_map (le_bytes 4) l) = (4 * List.length l)%nat.
Proof.
  induction l as [|d l IH]; [reflexivity|].
  cbn [flat_map]. rewrite length_app, length_le_bytes, IH.
  cbn [List.length]. lia.
Qed.

Lemma ob_digit_at_image (i : nat) :
  (i < List.length digits)%nat ->
  ob_digit_at (image mem address ob_refcnt ob_type digits sign) address i
  = nth i digits 0.
Proof.
  intros Hi.
  destruct (nth_split digits 0 Hi) as (low & high & Hsplit & Hlow).
  assert (Hd : 0 <= nth i digits 0 < 2 ^ 32).
  { eapply (proj1 (Forall_forall _ digits) digits_fit). apply nth_In, Hi. }
  unfold ob_digit_at, c_uint32_value, image, pylong_bytes.
  set (size := ob_size_of digits sign).
  set (d := nth i digits 0) in *.
  rewrite Hsplit. rewrite flat_map_app. cbn [flat_map].
  rewrite <- ?app_assoc.
  rewrite (app_assoc (le_bytes 8 ob_refcnt)).
  rewrite (app_assoc (le_bytes 8 ob_refcnt ++ le_bytes 8 ob_type)).
  rewrite (app_assoc ((le_bytes 8 ob_refcnt ++ le_bytes 8 ob_type)
                      ++ le_bytes 8 size)).
  replace (address + offset_ob_digit + sizeof_c_uint32 * Z.of_nat i)
    with (address
          + Z.of_nat (List.length
                        (((le_bytes 8 ob_refcnt ++ le_bytes 8 ob_type)
                          ++ le_bytes 8 size)
                         ++ flat_map (le_bytes 4) low))).
  2:{ rewrite !length_app, !length_le_bytes, length_flat_le_bytes, Hlow.
      unfold offset_ob_digit, offset_ob_size, sizeof_c_long, sizeof_c_void_p,
        sizeof_c_ssize_t, sizeof_c_uint32. lia. }
  change (Z.to_nat sizeof_c_uint32) with 4%nat.
  rewrite <- (length_le_bytes 4 d) at 1.
  rewrite c_ubyte_array_poke, sum_shifted_le_bytes by lia.
  rewrite ?length_le_bytes.
  change (0 * 8) with 0. rewrite Z.pow_0_r, Z.mul_1_r.
  apply Z.mod_small. exact Hd.
Qed.

Lemma digits_at_image :
  digits_at (image mem address ob_refcnt ob_type digits sign) address = digits.
Proof.
  assert (Hlen : Z.to_nat (Z.abs (ob_size_at (image mem address ob_refcnt ob_type digits sign)
                                    address))
                 = List.length digits).
  { rewrite ob_size_at_image. unfold ob_size_of.
    destruct sign; cbn [negate_if_negative]; lia. }
  unfold digits_at, range. rewrite Hlen.
  transitivity (map (fun d => d) digits); [|apply map_id].
  rewrite <- (map_nth_seq (fun d => d) digits 0).
  apply map_ext_in. intros k Hk. apply in_seq in Hk.
  apply ob_digit_at_image. lia.
Qed.

Hypothesis array_fits : Z.of_nat (List.length digits) < 2 ^ 61.

(** On the image of an object the function returns what [decode] returns
    on the digits and the sign the image was made from. *)
Lemma retrieve_image :
  retrieve_full_int_value_from_address
    (image mem address ob_refcnt ob_type digits sign) address
  = decode digits sign (2 ^ 30).
Proof.
  rewrite retrieve_is_decode.
  2:{ rewrite ob_size_at_image. unfold ob_size_of.
      destruct sign; cbn [negate_if_negative]; lia. }
  rewrite digits_at_image, !decode_returns. f_equal.
  unfold sign_at. rewrite ob_size_at_image. unfold ob_size_of.
  destruct sign; cbn [negate_if_negative].
  - destruct (Z.ltb_spec (Z.of_nat (List.length digits)) 0); [lia|].
    reflexivity.
  - destruct (Z.ltb_spec (- Z.of_nat (List.length digits)) 0);
      [reflexivity|].
    destruct digits; [reflexivity | cbn [List.length] in *; lia].
Qed.

End Images.

(** ** Ranges of what is read and written *)

Section Ranges.

Import Spec Ctypes Image.

(** A [c_uint32] read is never negative and never reaches [2 ** 32]. *)
Lemma c_uint32_value_range (mem : memory) (address : Z) :
  0 <= c_uint32_value mem address < 2 ^ 32.
Proof.
  unfold c_uint32_value, c_ubyte_array.
  change (Z.to_nat sizeof_c_uint32) with 4%nat.
  cbn [seq map sum_shifted].
  rewrite !Z.shiftl_mul_pow2 by lia.
  pose proof (ubyte_range (mem (address + Z.of_nat 0))).
  pose proof (ubyte_range (mem (address + Z.of_nat 1))).
  pose proof (ubyte_range (mem (address + Z.of_nat 2))).
  pose proof (ubyte_range (mem (address + Z.of_nat 3))).
  change (2 ^ (0 * 8)) with 1. change (2 ^ ((0 + 1) * 8)) with 256.
  change (2 ^ ((0 + 1 + 1) * 8)) with 65536.
  change (2 ^ ((0 + 1 + 1 + 1) * 8)) with 16777216.
  change (2 ^ 32) with 4294967296. lia.
Qed.

Lemma digits_at_range (mem : memory) (address : Z) :
  Forall (fun d => 0 <= d < 2 ^ 32) (digits_at mem address).
Proof.
  unfold digits_at. apply Forall_forall. intros d Hd.
  apply in_map_iff in Hd. destruct Hd as (i & <- & _).
  apply c_uint32_value_range.
Qed.

Lemma length_digits_of (fuel : nat) (base n : Z) :
  (List.length (digits_of fuel base n) <= fuel)%nat.
Proof.
  revert n. induction fuel as [|fuel IH]; intros n; cbn [digits_of].
  - simpl. lia.
  - destruct (n =? 0); cbn [List.length]; [lia|].
    specialize (IH (n / base)). lia.
Qed.

(** Round trip through memory: the function of the notebook, run on the
    image of the encoding of [v] at base [2 ** 30], returns [v].  The bound
    keeps the digit count within a [c_ssize_t]. *)
Lemma retrieve_encoded (mem : memory) (address ob_refcnt ob_type v : Z) :
  Z.log2 (Z.abs v) < 2 ^ 61 - 1 ->
  exists digits sign,
    encode v (2 ^ 30) = Returned (digits, sign)
    /\ retrieve_full_int_value_from_address
         (image mem address ob_refcnt ob_type digits sign) address
       = Returned v.
Proof.
  intros Hsmall.
  assert (Hbase : 2 <= 2 ^ 30) by (change (2 ^ 30) with 1073741824; lia).
  pose proof (decode_encode_returns _ Hbase v) as Hround.
  pose proof (encode_divides _ Hbase v) as Hdiv.
  unfold decode_encode in Hround.
  rewrite (encode_returns _ Hbase) in Hround |- *.
  cbn [bind fst snd] in Hround.
  eexists _, _. split; [reflexivity|].
  assert (Hcount : Z.of_nat (List.length
                              (digits_of (encode_fuel (Z.abs v)) (2 ^ 30)
                                         (Z.abs v))) < 2 ^ 61).
  { pose proof (length_digits_of (encode_fuel (Z.abs v)) (2 ^ 30) (Z.abs v)).
    pose proof (Z.log2_nonneg (Z.abs v)).
    unfold encode_fuel in *. lia. }
  assert (Hwider : 2 ^ 61 < 2 ^ 63) by reflexivity.
  rewrite retrieve_image; [exact Hround | | lia | exact Hcount].
  apply repeated_division_valid in Hdiv; [|exact Hbase].
  eapply Forall_impl; [|exact Hdiv].
  cbv beta. intros d Hd. change (2 ^ 32) with 4294967296.
  change (2 ^ 30) with 1073741824 in Hd. lia.
Qed.

End Ranges.

(** ** The contract of the specification and the code *)

Section Contract.

Import Spec.

(** Negating a zero magnitude changes nothing, so the guard of the
    specification and the plain negation of the source agree. *)
Lemma apply_sign_negate (sign : Sign) (magnitude : Z) :
  apply_sign sign magnitude = negate_if_negative sign magnitude.
Proof.
  destruct sign; cbn [apply_sign negate_if_negative]; [reflexivity|].
  destruct (Z.eqb_spec magnitude 0); lia.
Qed.

Lemma valid_digits_pass (base : Z) (digits : list Z) :
  valid_digits base digits -> existsb (invalid_digit base) digits = false.
Proof.
  induction 1 as [|d digits Hd _ IH]; [reflexivity|].
  cbn [existsb]. rewrite IH. unfold invalid_digit.
  destruct (Z.ltb_spec d 0); destruct (Z.leb_spec base d); simpl; lia.
Qed.

(** On the inputs the contract accepts, the code returns what the contract
    asks for. *)
Lemma decode_refines_contract (digits : list Z) (sign : Sign) (base : Z) :
  2 <= base ->
  valid_digits base digits ->
  decode digits sign base = decode_contract digits sign base.
Proof.
  intros Hbase Hvalid. unfold decode_contract.
  destruct (Z.ltb_spec base 2); [lia|].
  rewrite (valid_digits_pass _ _ Hvalid), decode_returns.
  now rewrite apply_sign_negate.
Qed.

End Contract.

(** ** The function with the memory as state *)

Section StateThreading.




End StateThreading.

(** * The claims *)

(** C1.  Round-trip law: for every integer [v] and every base of at least 2,
    decoding what encoding [v] at that base produced returns exactly [v],
    whatever the magnitude of [v]. *)
Theorem C1_round_trip (v base : Z) :
  2 <= base -> decode_encode v base = Returned v.
Proof. intros Hbase. now apply decode_encode_returns. Qed.

Lemma C1_round_trip_witness :
  2 <= 10 /\ decode_encode (- 12345) 10 = Returned (- 12345).
Proof. split; [lia | apply (C1_round_trip (- 12345) 10); lia]. Defined.

(** C2.  For a base of at least 2 and digits that each lie in [0, base),
    decoding with non-negative sign returns the sum of [digits[i] * base ^ i]
    over all positions [i], in exact integer arithmetic; at base [2 ** 30] a
    single digit [d] below [2 ** 30] decodes to [d]. *)
Theorem C2_decode_positional_sum (digits : list Z) (base : Z) :
  2 <= base ->
  Spec.valid_digits base digits ->
  decode digits NonNegative base
  = Returned (Spec.sum_below (List.length digits)
                (fun i => nth i digits 0 * base ^ Z.of_nat i))
  /\ forall d, 0 <= d < 2 ^ 30 -> decode [d] NonNegative (2 ^ 30) = Returned d.
Proof.
  intros _ _. split.
  - apply decode_returns.
  - intros d _. rewrite decode_returns. cbn [negate_if_negative].
    rewrite positional_value_cons, positional_value_nil. f_equal. lia.
Qed.

Lemma C2_decode_positional_sum_witness :
  decode [5; 0; 7] NonNegative 10 = Returned 705
  /\ decode [12345] NonNegative (2 ^ 30) = Returned 12345.
Proof.
  assert (Hvalid : Spec.valid_digits 10 [5; 0; 7])
    by (repeat constructor; lia).
  destruct (C2_decode_positional_sum [5; 0; 7] 10 ltac:(lia) Hvalid)
    as [Hsum Hsingle].
  split; [exact Hsum | apply Hsingle; lia].
Defined.



(** C4.  With negative sign and a non-zero accumulated magnitude the result
    is the negation of that magnitude; digits [[7]] at base 10 with negative
    sign decode to -7, and so does, at base [2 ** 30], an object in memory
    with the single digit 7 and a negative size. *)
Theorem C4_negative_sign (digits : list Z) (base magnitude : Z) :
  reconstruct base (list_getitem digits) (range (List.length digits)) 0
  = Returned magnitude ->
  magnitude <> 0 ->
  magnitude = Spec.positional_value base digits
  /\ decode digits Negative base = Returned (- magnitude)
  /\ decode [7] Negative 10 = Returned (- 7)
  /\ retrieve_full_int_value_from_address minus_seven_memory 4096
     = Returned (- 7).
Proof.
  intros Hacc _.
  assert (Hm : magnitude = Spec.positional_value base digits).
  { rewrite (reconstruct_range base _ (fun i => nth i digits 0)) in Hacc
      by (intros i Hi; now apply list_getitem_in_range).
    rewrite Z.add_0_l in Hacc. now injection Hacc as <-. }
  split; [exact Hm|]. split; [|split; reflexivity].
  unfold decode. rewrite Hacc. reflexivity.
Qed.

Lemma C4_negative_sign_witness :
  decode [3; 2] Negative 10 = Returned (- 23).
Proof.
  apply (C4_negative_sign [3; 2] 10 23); [reflexivity | lia].
Defined.

(** C5.  For every integer [v] and base of at least 2, [encode] returns the
    digits that repeated division of [|v|] by the base yields, least
    significant first, stopping at the first zero quotient: digit [i] is the
    remainder of the [i]-th quotient, the quotients before the end are
    non-zero and the one at the end is zero.  The sign is negative exactly
    when [v < 0], so zero is non-negative. *)
Theorem C5_encode_repeated_division (v base : Z) :
  2 <= base ->
  exists digits sign,
    encode v base = Returned (digits, sign)
    /\ Spec.repeated_division base (Z.abs v) digits
    /\ (forall digits', Spec.repeated_division base (Z.abs v) digits' ->
                        digits' = digits)
    /\ (forall i, nth i digits 0 = (Z.abs v / base ^ Z.of_nat i) mod base)
    /\ Z.abs v / base ^ Z.of_nat (List.length digits) = 0
    /\ (forall i, (i < List.length digits)%nat ->
                  Z.abs v / base ^ Z.of_nat i <> 0)
    /\ (sign = Negative <-> v < 0)
    /\ (v = 0 -> sign = NonNegative).
Proof.
  intros Hbase. pose proof (encode_divides base Hbase v) as Hdiv.
  eexists _, _. split; [now apply encode_returns|].
  split; [exact Hdiv|].
  split; [intros ds' Hds';
          exact (repeated_division_functional base _ _ _ Hds' Hdiv)|].
  split; [intros i; now apply repeated_division_nth|].
  destruct (repeated_division_length base Hbase _ _ Hdiv) as [Hend Hbefore].
  split; [exact Hend|]. split; [exact Hbefore|].
  destruct (Z.ltb_spec v 0); split; try split;
    intros; try discriminate; try reflexivity; lia.
Qed.

Lemma C5_encode_repeated_division_witness :
  2 <= 10
  /\ exists digits sign,
       encode (- 705) 10 = Returned (digits, sign)
       /\ digits = [5; 0; 7] /\ sign = Negative.
Proof.
  split; [lia|].
  destruct (C5_encode_repeated_division (- 705) 10 ltac:(lia))
    as (digits & sign & Henc & _).
  exists digits, sign. split; [exact Henc|].
  vm_compute in Henc. injection Henc as <- <-. split; reflexivity.
Defined.

(** C6.  For every integer [v] and base [b] of at least 2, the digits that
    [encode] returns are normalized: the sequence is empty, which happens
    exactly for [v = 0], or its most significant digit is not zero; and
    [encode(0, b)] is the empty sequence with non-negative sign. *)
Theorem C6_encode_normalized (v b : Z) :
  2 <= b ->
  (exists digits sign,
     encode v b = Returned (digits, sign)
     /\ Spec.normalized digits
     /\ (digits = [] <-> v = 0))
  /\ encode 0 b = Returned ([], NonNegative).
Proof.
  intros Hb. pose proof (encode_divides b Hb v) as Hdiv. split.
  - eexists _, _. split; [now apply encode_returns|]. split.
    + unfold Spec.normalized.
      destruct (digits_of (encode_fuel (Z.abs v)) b (Z.abs v)) as [|d ds] eqn:E;
        [now left | right].
      apply (repeated_division_last b Hb _ _ Hdiv). discriminate.
    + pose proof (repeated_division_value b Hb _ _ Hdiv) as Hval. split.
      * intros Hnil. rewrite Hnil in Hval. cbn in Hval. lia.
      * intros ->. reflexivity.
  - now rewrite encode_returns.
Qed.

Lemma C6_encode_normalized_witness :
  2 <= 2 ^ 30
  /\ encode (2 ^ 30) (2 ^ 30) = Returned ([0; 1], NonNegative)
  /\ Spec.normalized [0; 1]
  /\ encode 0 (2 ^ 30) = Returned ([], NonNegative).
Proof.
  assert (Hb : 2 <= 2 ^ 30) by (vm_compute; discriminate).
  destruct (C6_encode_normalized (2 ^ 30) (2 ^ 30) Hb)
    as [(digits & sign & Henc & Hnorm & _) Hzero].
  vm_compute in Henc. injection Henc as <- <-.
  split; [exact Hb|]. split; [reflexivity|].
  split; [exact Hnorm | exact Hzero].
Defined.

(** C7.  Nothing is truncated to a machine word.  An integer [v] of 300
    decimal digits does not fit 64 bits, and yet encoding it at base
    [2 ** 30] and decoding the digits returns [v]; after [k] iterations the
    accumulator of the loop is exactly the sum of the first [k] terms, an
    unbounded integer; and the function of the notebook returns [v] from an
    object in memory that holds these digits.  The integer of cell 20 comes
    back unchanged as well, from its digits and from its object in memory. *)
Theorem C7_large_value_exact (v : Z) :
  10 ^ 299 <= Z.abs v < 10 ^ 300 ->
  2 ^ 64 <= Z.abs v
  /\ decode_encode v (2 ^ 30) = Returned v
  /\ (exists digits sign,
        encode v (2 ^ 30) = Returned (digits, sign)
        /\ (forall k, (k <= List.length digits)%nat ->
              loop_steps (2 ^ 30) (list_getitem digits) (List.length digits) k
                (mk_state 0 0)
                (mk_state k
                   (Spec.sum_below k
                      (fun i => nth i digits 0 * (2 ^ 30) ^ Z.of_nat i))))
        /\ forall mem address ob_refcnt ob_type,
             retrieve_full_int_value_from_address
               (Image.poke mem address
                  (Image.pylong_bytes ob_refcnt ob_type digits sign))
               address
             = Returned v)
  /\ decode_encode notebook_a (2 ^ 30) = Returned notebook_a
  /\ retrieve_full_int_value_from_address notebook_memory 4936991280
     = Returned notebook_a.
Proof.
  intros [Hlow Hhigh].
  assert (Hbase : 2 <= 2 ^ 30) by (vm_compute; discriminate).
  assert (Hword : 2 ^ 64 <= 10 ^ 299) by (vm_compute; discriminate).
  assert (Hlog : Z.log2 (Z.abs v) < 2 ^ 61 - 1).
  { apply Z.le_lt_trans with (Z.log2 (10 ^ 300)).
    - apply Z.log2_le_mono. apply Z.lt_le_incl, Hhigh.
    - vm_compute. reflexivity. }
  split; [exact (Z.le_trans _ _ _ Hword Hlow)|].
  split; [now apply decode_encode_returns|].
  split.
  - exists (digits_of (encode_fuel (Z.abs v)) (2 ^ 30) (Z.abs v)),
      (if v <? 0 then Negative else NonNegative).
    split; [now apply encode_returns|]. split.
    + intros k Hk. apply loop_steps_range; [|exact Hk].
      intros i Hi. now apply list_getitem_in_range.
    + intros mem address ob_refcnt ob_type.
      destruct (retrieve_encoded mem address ob_refcnt ob_type v Hlog)
        as (digits & sign & Henc & Hret).
      rewrite (encode_returns _ Hbase) in Henc.
      injection Henc as <- <-. exact Hret.
  - split; vm_compute; reflexivity.
Qed.

Lemma C7_large_value_exact_witness :
  decode_encode (10 ^ 299 + 7) (2 ^ 30) = Returned (10 ^ 299 + 7).
Proof.
  apply (C7_large_value_exact (10 ^ 299 + 7)).
  split; vm_compute; [discriminate | reflexivity].
Defined.



(** C9.  Whatever the digits and the base, decoding with negative sign is
    the negation of decoding with non-negative sign; a sequence of zeros,
    empty or not, decodes to 0 under either sign; hence negating without
    looking at the magnitude, as the code does, gives what negating only a
    non-zero magnitude, as the specification says, gives. *)
Theorem C9_negation_unconditional (digits : list Z) (base : Z) (k : nat) :
  (exists magnitude,
     decode digits NonNegative base = Returned magnitude
     /\ decode digits Negative base = Returned (- magnitude))
  /\ (forall sign, decode (repeat 0 k) sign base = Returned 0)
  /\ (forall sign,
        decode digits sign base
        = Returned (Spec.apply_sign sign (Spec.positional_value base digits))).
Proof.
  split; [|split].
  - exists (Spec.positional_value base digits).
    split; apply decode_returns.
  - intros sign. rewrite decode_returns, positional_value_zeros.
    destruct sign; reflexivity.
  - intros sign. rewrite decode_returns. f_equal.
    symmetry. apply apply_sign_negate.
Qed.

(** C10.  [decode] does not need normalized input: any number of zero digits
    appended at the most significant end leaves the result unchanged, for
    every digit sequence, sign and base, each appended digit adding
    [0 * base ^ i] to the sum. *)
Theorem C10_trailing_zeros (digits : list Z) (sign : Sign) (base : Z) (k : nat) :
  decode (digits ++ repeat 0 k) sign base = decode digits sign base
  /\ Spec.positional_value base (digits ++ repeat 0 k)
     = Spec.positional_value base digits
  /\ forall i, (List.length digits <= i)%nat ->
               nth i (digits ++ repeat 0 k) 0 * base ^ Z.of_nat i = 0.
Proof.
  assert (Hsum : Spec.positional_value base (digits ++ repeat 0 k)
                 = Spec.positional_value base digits).
  { rewrite positional_value_app, positional_value_zeros. lia. }
  split; [now rewrite !decode_returns, Hsum|].
  split; [exact Hsum|].
  intros i Hi. rewrite app_nth2 by lia.
  replace (nth (i - List.length digits) (repeat 0 k) 0) with 0; [lia|].
  symmetry. destruct (Nat.lt_ge_cases (i - List.length digits) k) as [Hin|Hout].
  - apply nth_repeat_lt. exact Hin.
  - apply nth_overflow. rewrite repeat_length. exact Hout.
Qed.

(** * Further properties of the notebook's code *)

(** ** Bytes and words *)

Section Words.

Import Ctypes.

Lemma sum_shifted_next (bytes : list Z) (i : Z) :
  0 <= i -> sum_shifted (i + 1) bytes = 256 * sum_shifted i bytes.
Proof.
  revert i. induction bytes as [|b bytes IH]; intros i Hi; cbn [sum_shifted];
    [lia|].
  rewrite IH by lia. rewrite !Z.shiftl_mul_pow2 by lia.
  replace ((i + 1) * 8) with (8 + i * 8) by lia.
  rewrite Z.pow_add_r by lia. change (2 ^ 8) with 256. ring.
Qed.

Lemma sum_shifted_cons (b : Z) (bytes : list Z) :
  sum_shifted 0 (b :: bytes) = b + 256 * sum_shifted 0 bytes.
Proof.
  cbn [sum_shifted]. rewrite sum_shifted_next by lia.
  change (0 * 8) with 0. now rewrite Z.shiftl_0_r.
Qed.

Lemma sum_shifted_app (low high : list Z) :
  sum_shifted 0 (low ++ high)
  = sum_shifted 0 low + 256 ^ Z.of_nat (List.length low) * sum_shifted 0 high.
Proof.
  induction low as [|b low IH].
  - cbn [app List.length sum_shifted]. change (256 ^ Z.of_nat 0) with 1. lia.
  - cbn [app List.length]. rewrite !sum_shifted_cons, IH.
    rewrite Nat2Z.inj_succ, Z.pow_succ_r by lia. ring.
Qed.

Lemma sum_shifted_range (bytes : list Z) :
  Forall (fun b => 0 <= b < 256) bytes ->
  0 <= sum_shifted 0 bytes < 256 ^ Z.of_nat (List.length bytes).
Proof.
  induction 1 as [|b bytes Hb _ IH].
  - cbn. lia.
  - rewrite sum_shifted_cons. cbn [List.length].
    rewrite Nat2Z.inj_succ, Z.pow_succ_r by lia. lia.
Qed.

Lemma c_ubyte_array_bytes (mem : memory) (address : Z) (n : nat) :
  Forall (fun b => 0 <= b < 256) (c_ubyte_array mem address n).
Proof.
  unfold c_ubyte_array. apply Forall_forall. intros b Hb.
  apply in_map_iff in Hb. destruct Hb as (k & <- & _). apply ubyte_range.
Qed.

Lemma length_c_ubyte_array (mem : memory) (address : Z) (n : nat) :
  List.length (c_ubyte_array mem address n) = n.
Proof. unfold c_ubyte_array. now rewrite length_map, length_seq. Qed.

Lemma seq_offset (m n start : nat) :
  seq (n + start) m = map (Nat.add n) (seq start m).
Proof.
  revert start. induction m as [|m IH]; intros start; [reflexivity|].
  cbn [seq map]. f_equal. rewrite <- IH. f_equal. lia.
Qed.

Lemma c_ubyte_array_add (mem : memory) (address : Z) (n m : nat) :
  c_ubyte_array mem address (n + m)
  = c_ubyte_array mem address n
    ++ c_ubyte_array mem (address + Z.of_nat n) m.
Proof.
  unfold c_ubyte_array. rewrite seq_app, map_app.
  replace (seq (0 + n) m) with (map (Nat.add n) (seq 0 m))
    by (rewrite <- seq_offset; f_equal; lia).
  rewrite map_map. f_equal.
  apply map_ext. intros k. do 2 f_equal. lia.
Qed.

End Words.

Section WordReads.

Import Ctypes Image.

(** A 64-bit little-endian word is its two 32-bit halves. *)
Lemma word64_halves (mem : memory) (address : Z) :
  sum_shifted 0 (c_ubyte_array mem address 8)
  = c_uint32_value mem address + 2 ^ 32 * c_uint32_value mem (address + 4).
Proof.
  unfold c_uint32_value. change (Z.to_nat sizeof_c_uint32) with 4%nat.
  change 8%nat with (4 + 4)%nat.
  rewrite c_ubyte_array_add, sum_shifted_app, length_c_ubyte_array.
  reflexivity.
Qed.

Lemma word64_range (mem : memory) (address : Z) :
  0 <= sum_shifted 0 (c_ubyte_array mem address 8) < 2 ^ 64.
Proof.
  pose proof (sum_shifted_range _ (c_ubyte_array_bytes mem address 8)) as H.
  rewrite length_c_ubyte_array in H. exact H.
Qed.

Lemma signed_congruent (w u : Z) : 0 <= w -> (signed w u - u) mod 2 ^ w = 0.
Proof.
  intros Hw. unfold signed. destruct (u <? 2 ^ (w - 1)).
  - now rewrite Z.sub_diag, Z.mod_0_l by (apply Z.pow_nonzero; lia).
  - replace (u - 2 ^ w - u) with (- 1 * 2 ^ w) by ring.
    apply Z.mod_mul. apply Z.pow_nonzero; lia.
Qed.

Lemma signed_low_bits (u : Z) : signed 64 u mod 2 ^ 32 = u mod 2 ^ 32.
Proof.
  unfold signed. destruct (u <? 2 ^ (64 - 1)); [reflexivity|].
  change (2 ^ 64) with (2 ^ 32 * 2 ^ 32).
  replace (u - 2 ^ 32 * 2 ^ 32) with (u + (- 2 ^ 32) * 2 ^ 32) by ring.
  apply Z.mod_add. discriminate.
Qed.

Lemma signed_small (w u : Z) : 0 <= u < 2 ^ (w - 1) -> signed w u = u.
Proof. intros Hu. unfold signed. destruct (Z.ltb_spec u (2 ^ (w - 1))); lia. Qed.

(** A [c_long] read in terms of the two [c_uint32] reads it covers. *)
Lemma c_long_value_halves (mem : memory) (address : Z) :
  Probe.c_long_value mem address
  = signed 64 (c_uint32_value mem address
               + 2 ^ 32 * c_uint32_value mem (address + 4)).
Proof.
  unfold Probe.c_long_value. change (Z.to_nat sizeof_c_long) with 8%nat.
  now rewrite word64_halves.
Qed.

Lemma c_long_value_low (mem : memory) (address : Z) :
  Probe.c_long_value mem address mod 2 ^ 32 = c_uint32_value mem address.
Proof.
  rewrite c_long_value_halves, signed_low_bits.
  rewrite (Z.mul_comm (2 ^ 32)), Z.mod_add by discriminate.
  apply Z.mod_small, c_uint32_value_range.
Qed.

End WordReads.

(** X1.  [inspect_memory] reads an unsigned 64-bit word: the result lies in
    [0, 2 ** 64), its low half is the [c_uint32] at the address and its
    high half the [c_uint32] four bytes further; the [c_long] read of cell 4
    at the same address differs from it by a multiple of [2 ** 64] and
    equals it whenever it is below [2 ** 63]. *)
Theorem X1_inspect_memory_word (mem : Ctypes.memory) (address : Z) :
  0 <= Ctypes.inspect_memory mem address < 2 ^ 64
  /\ Ctypes.inspect_memory mem address mod 2 ^ 32
     = Ctypes.c_uint32_value mem address
  /\ Ctypes.inspect_memory mem address / 2 ^ 32
     = Ctypes.c_uint32_value mem (address + 4)
  /\ (Probe.value_at_address mem address
      - Ctypes.inspect_memory mem address) mod 2 ^ 64 = 0
  /\ (Ctypes.inspect_memory mem address < 2 ^ 63 ->
      Probe.value_at_address mem address = Ctypes.inspect_memory mem address).
Proof.
  unfold Ctypes.inspect_memory, Probe.value_at_address, Probe.c_long_value.
  change (Z.to_nat Ctypes.sizeof_c_long) with 8%nat.
  change (8 * Ctypes.sizeof_c_long) with 64.
  pose proof (word64_range mem address) as Hrange.
  pose proof (c_uint32_value_range mem address) as Hlow.
  pose proof (c_uint32_value_range mem (address + 4)) as Hhigh.
  split; [exact Hrange|].
  rewrite word64_halves in *.
  split; [|split; [|split]].
  - rewrite (Z.mul_comm (2 ^ 32)), Z.mod_add by discriminate.
    now apply Z.mod_small.
  - rewrite (Z.mul_comm (2 ^ 32)), Z.div_add by discriminate.
    rewrite Z.div_small by exact Hlow. lia.
  - apply signed_congruent. lia.
  - intros Hsmall. apply signed_small. change (64 - 1) with 63. lia.
Qed.

(** X2.  At the address of an object [inspect_memory] returns the reference
    count of the object, reduced modulo [2 ** 64], whatever the digits, the
    sign, the type pointer and the rest of memory are: it does not see the
    value of the integer at all. *)
Theorem X2_inspect_memory_reads_refcount
        (mem : Ctypes.memory) (address ob_refcnt ob_type : Z)
        (digits : list Z) (sign : Sign) :
  Ctypes.inspect_memory
    (Image.image mem address ob_refcnt ob_type digits sign) address
  = ob_refcnt mod 2 ^ 64.
Proof.
  unfold Ctypes.inspect_memory, Image.image, Image.pylong_bytes.
  change (Z.to_nat Ctypes.sizeof_c_long) with 8%nat.
  pose proof (c_ubyte_array_poke mem address []
                (Image.le_bytes 8 ob_refcnt)) as Hread.
  cbn [List.length app] in Hread. rewrite Z.add_0_r in Hread.
  rewrite length_le_bytes in Hread. rewrite Hread.
  rewrite sum_shifted_le_bytes by lia.
  change (0 * 8) with 0. rewrite Z.pow_0_r, Z.mul_1_r. reflexivity.
Qed.

Section Probes.

Import Ctypes Image.

Lemma c_long_is_ob_size (mem : memory) (address : Z) :
  Probe.c_long_value mem (address + 2 * sizeof_c_long) = ob_size_at mem address.
Proof. reflexivity. Qed.

(** The [c_long] read [3 + k] words into the object covers the digit slots
    [2 * k] and [2 * k + 1]. *)
Lemma c_long_covers_two_digits (mem : memory) (address : Z) (k : nat) :
  Probe.c_long_value mem (address + (3 + Z.of_nat k) * sizeof_c_long)
  = signed 64 (ob_digit_at mem address (2 * k)
               + 2 ^ 32 * ob_digit_at mem address (2 * k + 1)).
Proof.
  rewrite c_long_value_halves. unfold ob_digit_at.
  unfold offset_ob_digit, offset_ob_size, sizeof_c_long, sizeof_c_void_p,
    sizeof_c_ssize_t, sizeof_c_uint32.
  do 3 f_equal; [|f_equal]; lia.
Qed.

Lemma first_digit_is_slot_0 (mem : memory) (address : Z) :
  Cell18.first_digit mem address = ob_digit_at mem address 0.
Proof.
  unfold Cell18.first_digit, ob_digit_at. f_equal.
  unfold offset_ob_digit, offset_ob_size, sizeof_c_long, sizeof_c_void_p,
    sizeof_c_ssize_t, sizeof_c_uint32. lia.
Qed.

Lemma image_header_word (mem : memory) (address ob_refcnt ob_type : Z)
      (digits : list Z) (sign : Sign) :
  sum_shifted 0 (c_ubyte_array
                   (image mem address ob_refcnt ob_type digits sign)
                   address 8)
  = ob_refcnt mod 2 ^ 64
  /\ sum_shifted 0 (c_ubyte_array
                      (image mem address ob_refcnt ob_type digits sign)
                      (address + 8) 8)
     = ob_type mod 2 ^ 64.
Proof.
  unfold image, pylong_bytes. split.
  - pose proof (c_ubyte_array_poke mem address [] (le_bytes 8 ob_refcnt))
      as Hread.
    cbn [List.length app] in Hread. rewrite Z.add_0_r in Hread.
    rewrite length_le_bytes in Hread. rewrite Hread.
    rewrite sum_shifted_le_bytes by lia.
    change (0 * 8) with 0. now rewrite Z.pow_0_r, Z.mul_1_r.
  - pose proof (c_ubyte_array_poke mem address (le_bytes 8 ob_refcnt)
                  (le_bytes 8 ob_type)) as Hread.
    rewrite !length_le_bytes in Hread. rewrite Hread.
    rewrite sum_shifted_le_bytes by lia.
    change (0 * 8) with 0. now rewrite Z.pow_0_r, Z.mul_1_r.
Qed.

End Probes.

(** X3.  What cells 6 and 15 print as the first digit is the size field: on
    an object with [n] digits the read two [c_long]s into the object returns
    [n] for a non-negative and [-n] for a negative integer, and never looks
    at a digit; so every non-negative integer below [2 ** 30] but zero gives
    1. *)
Theorem X3_cell6_digit_is_signed_count
        (mem : Ctypes.memory) (address ob_refcnt ob_type : Z)
        (digits : list Z) (sign : Sign) :
  Z.of_nat (List.length digits) < 2 ^ 63 ->
  Cell6.digit (Image.image mem address ob_refcnt ob_type digits sign) address
  = match sign with
    | NonNegative => Z.of_nat (List.length digits)
    | Negative => - Z.of_nat (List.length digits)
    end.
Proof.
  intros Hfit. unfold Cell6.digit.
  rewrite c_long_is_ob_size, ob_size_at_image by exact Hfit.
  destruct sign; reflexivity.
Qed.

Lemma X3_cell6_digit_is_signed_count_witness :
  Cell6.digit (Image.image Image.zeroed 4096 2 4368111432 [12345] NonNegative)
              4096
  = 1.
Proof.
  apply (X3_cell6_digit_is_signed_count
           Image.zeroed 4096 2 4368111432 [12345] NonNegative).
  vm_compute. reflexivity.
Defined.

(** X4.  The reads of cell 8, in any memory.  Its first digit is the size
    field that the reconstruction uses.  Each later read is a [c_long] laid
    over two 32-bit digit slots: the second digit covers slots 0 and 1, the
    third 2 and 3, the fourth 4 and 5, the fifth 6 and 7; the digit that the
    reconstruction reads first is the low half of the second digit. *)
Theorem X4_cell8_reads_digit_pairs (mem : Ctypes.memory) (address : Z) :
  let slot := ob_digit_at mem address in
  Cell8.first_digit mem address = ob_size_at mem address
  /\ Cell8.second_digit mem address
     = Ctypes.signed 64 (slot 0%nat + 2 ^ 32 * slot 1%nat)
  /\ Cell8.third_digit mem address
     = Ctypes.signed 64 (slot 2%nat + 2 ^ 32 * slot 3%nat)
  /\ Cell8.fourth_digit mem address
     = Ctypes.signed 64 (slot 4%nat + 2 ^ 32 * slot 5%nat)
  /\ Cell8.fifth_digit mem address
     = Ctypes.signed 64 (slot 6%nat + 2 ^ 32 * slot 7%nat)
  /\ Cell8.second_digit mem address mod 2 ^ 32 = slot 0%nat.
Proof.
  intros slot. split; [apply c_long_is_ob_size|].
  split; [exact (c_long_covers_two_digits mem address 0)|].
  split; [exact (c_long_covers_two_digits mem address 1)|].
  split; [exact (c_long_covers_two_digits mem address 2)|].
  split; [exact (c_long_covers_two_digits mem address 3)|].
  unfold Cell8.second_digit, slot. rewrite c_long_value_low.
  unfold ob_digit_at. f_equal.
  unfold offset_ob_digit, offset_ob_size, Ctypes.sizeof_c_long,
    Ctypes.sizeof_c_void_p, Ctypes.sizeof_c_ssize_t, Ctypes.sizeof_c_uint32.
  lia.
Qed.

(** X5.  On an object with at least one digit, cell 18 reads back each
    field as it was laid out: the reference count, the type pointer ([None]
    if it is null), the signed digit count, and the least significant
    digit. *)
Theorem X5_cell18_reads_fields
        (mem : Ctypes.memory) (address ob_refcnt ob_type d : Z)
        (rest : list Z) (sign : Sign) :
  0 <= ob_refcnt < 2 ^ 63 ->
  0 <= ob_type < 2 ^ 64 ->
  Forall (fun x => 0 <= x < 2 ^ 32) (d :: rest) ->
  Z.of_nat (List.length (d :: rest)) < 2 ^ 63 ->
  let object := Image.image mem address ob_refcnt ob_type (d :: rest) sign in
  Cell18.ref_count object address = ob_refcnt
  /\ Cell18.type_ptr object address
     = (if ob_type =? 0 then None else Some ob_type)
  /\ Cell18.size object address
     = negate_if_negative sign (Z.of_nat (List.length (d :: rest)))
  /\ Cell18.first_digit object address = d.
Proof.
  intros Hrc Hty Hfit Hcount object.
  destruct (image_header_word mem address ob_refcnt ob_type (d :: rest) sign)
    as [Hword0 Hword1].
  fold object in Hword0, Hword1.
  split; [|split; [|split]].
  - unfold Cell18.ref_count, Probe.c_long_value.
    change (Z.to_nat Ctypes.sizeof_c_long) with 8%nat.
    rewrite Hword0, Z.mod_small by lia.
    apply signed_small. change (8 * Ctypes.sizeof_c_long - 1) with 63. lia.
  - unfold Cell18.type_ptr, Probe.c_void_p_value.
    change (Z.to_nat Ctypes.sizeof_c_void_p) with 8%nat.
    change (address + Ctypes.sizeof_c_long) with (address + 8).
    rewrite Hword1, Z.mod_small by lia. reflexivity.
  - unfold Cell18.size. rewrite c_long_is_ob_size.
    unfold object. now rewrite ob_size_at_image.
  - rewrite first_digit_is_slot_0. unfold object.
    rewrite ob_digit_at_image; [reflexivity | exact Hfit | cbn; lia].
Qed.

Lemma X5_cell18_reads_fields_witness :
  Cell18.first_digit
    (Image.image Image.zeroed 4096 2 4368111432 [12345] NonNegative) 4096
  = 12345.
Proof.
  assert (Hfit : Forall (fun x => 0 <= x < 2 ^ 32) [12345])
    by (repeat constructor; vm_compute; congruence).
  apply (X5_cell18_reads_fields Image.zeroed 4096 2 4368111432 12345 []
           NonNegative);
    [vm_compute; split; congruence | vm_compute; split; congruence
     | exact Hfit | vm_compute; reflexivity].
Defined.

(** X6.  The shortcut of cell 18 against the full reconstruction: in any
    memory where the size field reads 1, 0 or -1 the function returns the
    product of the size and the first digit that cell 18 read; so it returns
    that digit for size 1, its negation for size -1, and 0 for size 0. *)
Theorem X6_cell18_agrees_with_retrieve (mem : Ctypes.memory) (address : Z) :
  Z.abs (Cell18.size mem address) <= 1 ->
  retrieve_full_int_value_from_address mem address
  = Returned (Cell18.size mem address * Cell18.first_digit mem address).
Proof.
  intros Hsize. unfold Cell18.size in *.
  rewrite c_long_is_ob_size in *. rewrite first_digit_is_slot_0.
  assert (Hwide : 1 < 2 ^ 61) by reflexivity.
  rewrite retrieve_is_decode, decode_returns by lia. f_equal.
  unfold sign_at, digits_at.
  assert (Hcases : ob_size_at mem address = 0 \/ ob_size_at mem address = 1
                   \/ ob_size_at mem address = - 1) by lia.
  destruct Hcases as [H|[H|H]]; rewrite H.
  - reflexivity.
  - change (Z.to_nat (Z.abs 1)) with 1%nat. cbn [range seq map Z.ltb Z.compare].
    rewrite positional_value_cons, positional_value_nil.
    unfold negate_if_negative. lia.
  - change (Z.to_nat (Z.abs (- 1))) with 1%nat.
    cbn [range seq map Z.ltb Z.compare Z.opp].
    rewrite positional_value_cons, positional_value_nil.
    unfold negate_if_negative. lia.
Qed.

Lemma X6_cell18_agrees_with_retrieve_witness :
  retrieve_full_int_value_from_address minus_seven_memory 4096
  = Returned (Cell18.size minus_seven_memory 4096
              * Cell18.first_digit minus_seven_memory 4096).
Proof.
  apply (X6_cell18_agrees_with_retrieve minus_seven_memory 4096).
  vm_compute. congruence.
Defined.

(** ** What the reconstruction reads, and what it can return *)

Section Locality.

Import Ctypes.

Variables mem mem' : memory.
Variable address : Z.

Lemma c_ubyte_array_agree (start : Z) (n : nat) :
  (forall k, start <= k < start + Z.of_nat n -> mem k = mem' k) ->
  c_ubyte_array mem start n = c_ubyte_array mem' start n.
Proof.
  intros Hagree. unfold c_ubyte_array. apply map_ext_in.
  intros k Hk. apply in_seq in Hk. rewrite Hagree by lia. reflexivity.
Qed.

Hypothesis agree :
  forall k,
    address + offset_ob_size <= k
    < address + offset_ob_digit
      + sizeof_c_uint32 * Z.abs (ob_size_at mem address) ->
    mem k = mem' k.

Lemma ob_size_at_agree : ob_size_at mem' address = ob_size_at mem address.
Proof.
  unfold ob_size_at, c_ssize_t_value. f_equal. f_equal. symmetry.
  apply c_ubyte_array_agree. intros k Hk. apply agree.
  change (Z.of_nat (Z.to_nat sizeof_c_ssize_t)) with 8 in Hk.
  unfold offset_ob_digit, offset_ob_size, sizeof_c_long, sizeof_c_void_p,
    sizeof_c_ssize_t, sizeof_c_uint32 in *. lia.
Qed.

Lemma ob_digit_at_agree (i : nat) :
  Z.of_nat i < Z.abs (ob_size_at mem address) ->
  ob_digit_at mem' address i = ob_digit_at mem address i.
Proof.
  intros Hi. unfold ob_digit_at, c_uint32_value. f_equal. symmetry.
  apply c_ubyte_array_agree. intros k Hk. apply agree.
  change (Z.of_nat (Z.to_nat sizeof_c_uint32)) with 4 in Hk.
  unfold offset_ob_digit, offset_ob_size, sizeof_c_long, sizeof_c_void_p,
    sizeof_c_ssize_t, sizeof_c_uint32 in *. lia.
Qed.

Lemma retrieve_agree :
  retrieve_full_int_value_from_address mem address
  = retrieve_full_int_value_from_address mem' address.
Proof.
  rewrite !retrieve_cases. unfold sign_at, digits_at.
  rewrite ob_size_at_agree.
  destruct (2 ^ 61 <=? Z.abs (ob_size_at mem address)); [reflexivity|].
  f_equal.
  apply map_ext_in. intros i Hi. apply in_seq in Hi.
  symmetry. apply ob_digit_at_agree. lia.
Qed.

End Locality.

(** X7.  The function reads the size field and the digit slots that the
    size announces, and nothing else: two memories that agree on the eight
    bytes of the size field and on the four bytes of each of the
    [abs(ob_size)] digit slots give the same result, whatever the reference
    count, the type pointer and all other bytes are. *)
Theorem X7_retrieve_reads_size_and_digits_only
        (mem mem' : Ctypes.memory) (address : Z) :
  (forall k,
      address + 16 <= k < address + 24 + 4 * Z.abs (ob_size_at mem address) ->
      mem k = mem' k) ->
  retrieve_full_int_value_from_address mem address
  = retrieve_full_int_value_from_address mem' address.
Proof. intros Hagree. apply retrieve_agree. exact Hagree. Qed.

Lemma X7_retrieve_reads_size_and_digits_only_witness :
  retrieve_full_int_value_from_address minus_seven_memory 4096
  = retrieve_full_int_value_from_address
      (fun k => if k <? 4112 then xff else minus_seven_memory k) 4096.
Proof.
  apply (X7_retrieve_reads_size_and_digits_only
           minus_seven_memory
           (fun k => if k <? 4112 then xff else minus_seven_memory k) 4096).
  intros k Hk. destruct (Z.ltb_spec k 4112); [lia | reflexivity].
Defined.



(** ** Well-formed digits *)

Section Digits.

Import Spec.

Variable base : Z.
Hypothesis base_ge_2 : 2 <= base.




(** Every digit can be read off the value again. *)
Lemma positional_value_digit (digits : list Z) (i : nat) :
  valid_digits base digits ->
  nth i digits 0 = (positional_value base digits / base ^ Z.of_nat i) mod base.
Proof.
  intros Hvalid. revert i. induction Hvalid as [|d digits Hd Hrest IH]; intros i.
  - rewrite positional_value_nil, Z.div_0_l, Z.mod_0_l
      by (try apply Z.pow_nonzero; lia).
    destruct i; reflexivity.
  - rewrite positional_value_cons. destruct i as [|i].
    + cbn [nth]. rewrite Z.pow_0_r, Z.div_1_r.
      rewrite (Z.mul_comm base), Z.mod_add by lia.
      symmetry. now apply Z.mod_small.
    + cbn [nth]. rewrite IH.
      rewrite Nat2Z.inj_succ, Z.pow_succ_r by lia.
      rewrite <- Z.div_div by (try apply Z.pow_pos_nonneg; lia).
      rewrite (Z.mul_comm base), Z.div_add by lia.
      rewrite (Z.div_small d base) by exact Hd. reflexivity.
Qed.

End Digits.





(** X11.  Nothing is lost on well-formed digits: for a base of at least 2
    and digits in [0, base), [decode] returns a value from which every digit
    can be computed back, digit [i] being the quotient of the magnitude by
    [base ** i], reduced modulo [base]; positions past the end give 0. *)
Theorem X11_decode_keeps_digits (digits : list Z) (sign : Sign) (base : Z) :
  2 <= base ->
  Spec.valid_digits base digits ->
  exists v,
    decode digits sign base = Returned v
    /\ forall i, nth i digits 0 = (Z.abs v / base ^ Z.of_nat i) mod base.
Proof.
  intros Hbase Hvalid. eexists. split; [apply decode_returns|].
  intros i. pose proof (valid_digits_bounds _ _ Hvalid) as Hb.
  replace (Z.abs (negate_if_negative sign (Spec.positional_value base digits)))
    with (Spec.positional_value base digits)
    by (destruct sign; unfold negate_if_negative; lia).
  now apply positional_value_digit.
Qed.

Lemma X11_decode_keeps_digits_witness :
  exists v,
    decode [5; 0; 7] Negative 10 = Returned v
    /\ forall i, nth i [5; 0; 7] 0 = (Z.abs v / 10 ^ Z.of_nat i) mod 10.
Proof.
  apply (X11_decode_keeps_digits [5; 0; 7] Negative 10); [lia|].
  repeat constructor; lia.
Defined.

(** X12.  Two objects with digits below [2 ** 30] and the same number of
    digits from which the function returns the same integer hold the same
    digits: on well-formed objects of one length the reconstruction is
    injective. *)
Theorem X12_retrieve_injective
        (mem mem' : Ctypes.memory) (address address' v : Z) :
  Forall (fun d => d < 2 ^ 30) (digits_at mem address) ->
  Forall (fun d => d < 2 ^ 30) (digits_at mem' address') ->
  Z.abs (ob_size_at mem address) = Z.abs (ob_size_at mem' address') ->
  retrieve_full_int_value_from_address mem address = Returned v ->
  retrieve_full_int_value_from_address mem' address' = Returned v ->
  digits_at mem address = digits_at mem' address'.
Proof.
  intros Hsmall Hsmall' Hsize Hret Hret'.
  assert (Hbase : 2 <= 2 ^ 30) by (vm_compute; discriminate).
  assert (Hvalid : forall m a, Forall (fun d => d < 2 ^ 30) (digits_at m a) ->
                               Spec.valid_digits (2 ^ 30) (digits_at m a)).
  { intros m a Hs. unfold Spec.valid_digits. apply Forall_forall.
    intros d Hd. split.
    - apply (proj1 (Forall_forall _ _) (digits_at_range m a) d Hd).
    - apply (proj1 (Forall_forall _ _) Hs d Hd). }
  pose proof (Hvalid _ _ Hsmall) as Hv. pose proof (Hvalid _ _ Hsmall') as Hv'.
  rewrite retrieve_cases in Hret, Hret'.
  destruct (2 ^ 61 <=? Z.abs (ob_size_at mem address)); [discriminate|].
  destruct (2 ^ 61 <=? Z.abs (ob_size_at mem' address')); [discriminate|].
  rewrite decode_returns in Hret, Hret'.
  assert (Hreturned : forall x y : Z, Returned x = Returned y -> x = y)
    by (intros x y Hxy; congruence).
  apply Hreturned in Hret. apply Hreturned in Hret'.
  pose proof (valid_digits_bounds _ _ Hv) as Hb.
  pose proof (valid_digits_bounds _ _ Hv') as Hb'.
  assert (Heq : Spec.positional_value (2 ^ 30) (digits_at mem address)
                = Spec.positional_value (2 ^ 30) (digits_at mem' address')).
  { destruct (sign_at mem address), (sign_at mem' address');
      unfold negate_if_negative in Hret, Hret'; lia. }
  apply (nth_ext _ _ 0 0).
  - rewrite !length_digits_at. now rewrite Hsize.
  - intros i _.
    rewrite (positional_value_digit _ Hbase _ i Hv).
    rewrite (positional_value_digit _ Hbase _ i Hv').
    now rewrite Heq.
Qed.

Lemma X12_retrieve_injective_witness :
  digits_at minus_seven_memory 4096
  = digits_at (fun k => if k <? 4112 then xff else minus_seven_memory k) 4096.
Proof.
  assert (Hdigits : digits_at minus_seven_memory 4096 = [7])
    by (vm_compute; reflexivity).
  assert (Hdigits' :
            digits_at (fun k => if k <? 4112 then xff else minus_seven_memory k)
                      4096
            = [7])
    by (vm_compute; reflexivity).
  apply (X12_retrieve_injective
           minus_seven_memory
           (fun k => if k <? 4112 then xff else minus_seven_memory k)
           4096 4096 (- 7)).
  - rewrite Hdigits. repeat constructor.
  - rewrite Hdigits'. repeat constructor.
  - vm_compute. reflexivity.
  - vm_compute. reflexivity.
  - vm_compute. reflexivity.
Defined.



(** X14.  Concatenation.  Decoding a digit sequence split in a low and a
    high part: the result is the result for the low part plus
    [base ** len(low)] times the result for the high part, for every base,
    sign and digits. *)
Theorem X14_decode_concatenation
        (low high : list Z) (sign : Sign) (base : Z) :
  exists v_low v_high,
    decode low sign base = Returned v_low
    /\ decode high sign base = Returned v_high
    /\ decode (low ++ high) sign base
       = Returned (v_low + base ^ Z.of_nat (List.length low) * v_high).
Proof.
  eexists _, _. rewrite !decode_returns. split; [reflexivity|].
  split; [reflexivity|]. f_equal. rewrite positional_value_app.
  destruct sign; unfold negate_if_negative; ring.
Qed.
